(** * The identity-group resource of the Vault provider

    A shallow embedding of [vault/resource_identity_group.go]: the five
    handlers of the resource (create, update, read, delete, exists), the
    payload builder and the two path builders, over a model of the two
    collaborators the handlers talk to:

    - the locally tracked state [schema.ResourceData] (the id and the
      attribute map of the resource), which the handlers mutate in place;
    - the remote store reached through [client.Logical()], whose every call
      is recorded in a trace.

    A handler is a computation in the monad [M]: it threads the tracked
    state and the trace of remote calls, and either returns or panics (a Go
    runtime fault: nil dereference, failed type assertion). The calls to
    [log.Printf] are left out: nothing the handlers return or store depends
    on them. *)

From Stdlib Require Import Ascii.
From stdpp Require Import base option strings pretty gmap.

(** ** Go values held in [interface{}] *)

(** The values a decoded response can hold. The client decodes a JSON
    number as a [json.Number], a string type that holds the text of the
    number: [VInt n] is the number whose text is the decimal writing of
    [n]. *)

#[warnings="-register-all"]
Inductive value :=
| VNil
| VBool (b : bool)
| VInt (n : Z)
| VString (s : string)
| VList (l : list value)
| VMap (m : list (string * value)).

(** Indexing a Go map: a missing key yields the nil interface value. *)
Definition index (m : gmap string value) (k : string) : value :=
  default VNil (m !! k).

(** ** Package fmt: the two formatting calls the handlers use *)

Module fmt.

(** [Sprintf] restricted to the verb the path builders use, [%s] applied to
    string operands. *)
Fixpoint Sprintf (format : string) (args : list string) : string :=
  match format with
  | EmptyString => EmptyString
  | String c rest =>
      match c, rest with
      | "%"%char, String "s"%char rest' =>
          match args with
          | a :: args' => a +:+ Sprintf rest' args'
          | [] => "%!s(MISSING)" +:+ Sprintf rest' []
          end
      | _, _ => String c (Sprintf rest args)
      end
  end.

(** An operand of [Errorf]: a string (printed by [%q] in the handlers) or
    the error returned by the remote client (printed by [%s]), which is
    identified with its message. *)
Inductive Arg :=
| AString (s : string)
| AError (e : string).

(** The error value built by [fmt.Errorf(format, args...)], kept as the
    call that built it. *)
Record error := Errorf { format : string; args : list Arg }.

End fmt.

(** ** Package schema: the tracked state of a resource *)

Module schema.

Inductive ValueType := TypeString | TypeList | TypeMap.

Record Schema := {
  Type_ : ValueType;
  Required : bool;
  Optional : bool;
  Computed : bool;
  ForceNew : bool;
  Default : option value;
  Elem : option ValueType;
  Description : string
}.

Record Resource := { Schema_ : gmap string Schema }.

(** The zero value of a schema type. *)
Definition Zero (t : ValueType) : value :=
  match t with
  | TypeString => VString EmptyString
  | TypeList => VList []
  | TypeMap => VMap []
  end.

Definition has_type (t : ValueType) (v : value) : bool :=
  match t, v with
  | TypeString, VString _ => true
  | TypeList, VList _ => true
  | TypeMap, VMap _ => true
  | _, _ => false
  end.

Definition is_zero (v : value) : bool :=
  match v with
  | VNil | VString EmptyString | VList [] | VMap [] => true
  | _ => false
  end.

(** The tracked state: the resource id and the attributes by name. *)
Record ResourceData := {
  rd_id : string;
  rd_fields : gmap string value
}.

Definition Id (d : ResourceData) : string := rd_id d.

Definition SetId (v : string) (d : ResourceData) : ResourceData :=
  {| rd_id := v; rd_fields := rd_fields d |}.

(** [d.Get(key)]: the attribute at the type its schema declares, the zero
    value of that type when it is not set, nil for a key the schema does not
    declare. *)
Definition Get (r : Resource) (d : ResourceData) (key : string) : value :=
  match Schema_ r !! key with
  | None => VNil
  | Some s =>
      match rd_fields d !! key with
      | Some v => if has_type (Type_ s) v then v else Zero (Type_ s)
      | None => Zero (Type_ s)
      end
  end.

(** [d.GetOk(key)]: the value of [Get] and whether the attribute is set to
    something other than the zero value. *)
Definition GetOk (r : Resource) (d : ResourceData) (key : string)
  : value * bool :=
  match Schema_ r !! key with
  | None => (VNil, false)
  | Some s =>
      match rd_fields d !! key with
      | Some v =>
          if has_type (Type_ s) v then (v, negb (is_zero v))
          else (Zero (Type_ s), false)
      | None => (Zero (Type_ s), false)
      end
  end.

(** What [Set] stores for a value written to an attribute of type string:
    a string as it is and a number as its text; any other value is
    refused. *)
Definition as_string (v : value) : option value :=
  match v with
  | VString s => Some (VString s)
  | VInt n => Some (VString (pretty n))
  | _ => None
  end.

(** What [Set] stores for an element of a list or a map of strings: as for
    an attribute of type string, and the empty string for a nil element. *)
Definition as_element (v : value) : option value :=
  match v with
  | VNil => Some (VString EmptyString)
  | _ => as_string v
  end.

(** The value [Set] stores for [v] under an attribute of schema [s], if it
    accepts [v]: the value must have the type of the attribute, and the
    elements of a list or a map the type of its elements (strings, the
    only element type modelled). *)
Definition coerce (s : Schema) (v : value) : option value :=
  match Type_ s, v with
  | TypeString, _ => as_string v
  | TypeList, VList l =>
      match Elem s with
      | Some TypeString => VList <$> mapM as_element l
      | _ => None
      end
  | TypeMap, VMap m =>
      match Elem s with
      | Some TypeString | None =>
          VMap <$> mapM (λ kv, pair kv.1 <$> as_element kv.2) m
      | _ => None
      end
  | _, _ => None
  end.

(** [d.Set(key, v)]: a nil value clears the attribute; a value the schema
    of the attribute accepts is stored, as [coerce] gives it; any other
    value, and a key the schema does not declare, is an error and leaves
    the tracked state as it was. The handlers ignore the error [Set]
    returns. *)
Definition Set_ (r : Resource) (d : ResourceData) (key : string) (v : value)
  : ResourceData :=
  match Schema_ r !! key with
  | None => d
  | Some s =>
      match v with
      | VNil => {| rd_id := rd_id d; rd_fields := delete key (rd_fields d) |}
      | _ =>
          match coerce s v with
          | Some v' =>
              {| rd_id := rd_id d; rd_fields := <[key := v']> (rd_fields d) |}
          | None => d
          end
      end
  end.

End schema.

(** ** Package api: the remote client *)

Module api.

Record Secret := { Data : gmap string value }.

(** A remote call, as the trace records it. *)
Inductive Call :=
| ReadCall (path : string)
| WriteCall (path : string) (data : gmap string value)
| DeleteCall (path : string).

(** What a call returns: the pair [(resp, err)] of a nullable response and
    a nullable error (identified with its message). *)
Record Reply := { resp : option Secret; err : option string }.

(** [client.Logical()]: each operation answers from the calls issued so
    far and its own arguments. *)
Record Logical := {
  Read : list Call → string → Reply;
  Write : list Call → string → gmap string value → Reply;
  Delete : list Call → string → Reply
}.

End api.

(** ** The handler monad *)

Record World := {
  tracked : schema.ResourceData;
  calls : list api.Call
}.

Inductive Outcome (A : Type) :=
| Return (a : A) (w : World)
| Panic (reason : string) (w : World).
Arguments Return {A} a w.
Arguments Panic {A} reason w.

Definition M (A : Type) : Type := World → Outcome A.

#[global] Instance M_ret : MRet M := λ A a w, Return a w.
#[global] Instance M_bind : MBind M := λ A B f c w,
  match c w with
  | Return a w' => f a w'
  | Panic reason w' => Panic reason w'
  end.

Definition panic {A} (reason : string) : M A := λ w, Panic reason w.

(** The final world of a run, whether it returned or panicked. *)
Definition final {A} (o : Outcome A) : World :=
  match o with
  | Return _ w => w
  | Panic _ w => w
  end.

Fixpoint for_each {A} (l : list A) (body : A → M unit) : M unit :=
  match l with
  | [] => mret tt
  | x :: l' => body x ≫= λ _, for_each l' body
  end.

(** Operations on the tracked state. *)
Definition d_Id : M string := λ w, Return (schema.Id (tracked w)) w.

Definition d_SetId (v : string) : M unit := λ w,
  Return tt {| tracked := schema.SetId v (tracked w); calls := calls w |}.

Definition d_Set (r : schema.Resource) (key : string) (v : value)
    : M unit := λ w,
  Return tt {| tracked := schema.Set_ r (tracked w) key v; calls := calls w |}.

Definition d_Get (r : schema.Resource) (key : string) : M value := λ w,
  Return (schema.Get r (tracked w) key) w.

Definition d_current : M schema.ResourceData := λ w, Return (tracked w) w.

(** The type assertion [v.(string)]. *)
Definition assert_string (v : value) : M string :=
  match v with
  | VString s => mret s
  | _ => panic "interface conversion: interface {} is not string"
  end.

(** Remote operations: each one appends its call to the trace. *)
Definition remote_Read (client : api.Logical) (path : string) : M api.Reply :=
  λ w, Return (api.Read client (calls w) path)
         {| tracked := tracked w; calls := calls w ++ [api.ReadCall path] |}.

Definition remote_Write (client : api.Logical) (path : string)
    (data : gmap string value) : M api.Reply :=
  λ w, Return (api.Write client (calls w) path data)
         {| tracked := tracked w;
            calls := calls w ++ [api.WriteCall path data] |}.

Definition remote_Delete (client : api.Logical) (path : string)
    : M api.Reply :=
  λ w, Return (api.Delete client (calls w) path)
         {| tracked := tracked w; calls := calls w ++ [api.DeleteCall path] |}.

(** [resp.Data] on a nullable response: a nil dereference panics. *)
Definition deref (resp : option api.Secret) : M api.Secret :=
  match resp with
  | Some s => mret s
  | None => panic "invalid memory address or nil pointer dereference"
  end.

(** ** The resource *)

Definition identityGroupPath : string := "/identity/group".

Definition identityGroupResource : schema.Resource :=
  {| schema.Schema_ := list_to_map [
       ("name",
        {| schema.Type_ := schema.TypeString; schema.Required := true;
           schema.Optional := false; schema.Computed := false;
           schema.ForceNew := true; schema.Default := None;
           schema.Elem := None;
           schema.Description := "Name of the group." |});
       ("type",
        {| schema.Type_ := schema.TypeString; schema.Required := false;
           schema.Optional := true; schema.Computed := false;
           schema.ForceNew := true;
           schema.Default := Some (VString "internal");
           schema.Elem := None;
           schema.Description :=
             "Type of the group, internal or external. Defaults to internal." |});
       ("metadata",
        {| schema.Type_ := schema.TypeMap; schema.Required := false;
           schema.Optional := true; schema.Computed := false;
           schema.ForceNew := false; schema.Default := None;
           schema.Elem := Some schema.TypeString;
           schema.Description := "Metadata to be associated with the group." |});
       ("policies",
        {| schema.Type_ := schema.TypeList; schema.Required := false;
           schema.Optional := true; schema.Computed := false;
           schema.ForceNew := false; schema.Default := None;
           schema.Elem := Some schema.TypeString;
           schema.Description := "Policies to be tied to the group." |});
       ("member_group_ids",
        {| schema.Type_ := schema.TypeList; schema.Required := false;
           schema.Optional := true; schema.Computed := false;
           schema.ForceNew := false; schema.Default := None;
           schema.Elem := Some schema.TypeString;
           schema.Description := "Group IDs to be assigned as group members." |});
       ("member_entity_ids",
        {| schema.Type_ := schema.TypeList; schema.Required := false;
           schema.Optional := true; schema.Computed := false;
           schema.ForceNew := false; schema.Default := None;
           schema.Elem := Some schema.TypeString;
           schema.Description := "Entity IDs to be assigned as group members." |});
       ("id",
        {| schema.Type_ := schema.TypeString; schema.Required := false;
           schema.Optional := false; schema.Computed := true;
           schema.ForceNew := false; schema.Default := None;
           schema.Elem := None;
           schema.Description := "ID of the group." |})
     ] |}.

Definition identityGroupNamePath (name : string) : string :=
  fmt.Sprintf "%s/name/%s" [identityGroupPath; name].

Definition identityGroupIDPath (id : string) : string :=
  fmt.Sprintf "%s/id/%s" [identityGroupPath; id].

(** [identityGroupUpdateFields(d, data)]: the map [data] after the call. *)
Definition identityGroupUpdateFields (d : schema.ResourceData)
    (data : gmap string value) : gmap string value :=
  let data :=
    match schema.GetOk identityGroupResource d "policies" with
    | (policies, true) => <["policies" := policies]> data
    | _ => data
    end in
  let data :=
    match schema.GetOk identityGroupResource d "member_entity_ids" with
    | (memberEntityIDs, true) => <["member_entity_ids" := memberEntityIDs]> data
    | _ => data
    end in
  let data :=
    match schema.GetOk identityGroupResource d "member_group_ids" with
    | (memberGroupIDs, true) => <["member_group_ids" := memberGroupIDs]> data
    | _ => data
    end in
  match schema.GetOk identityGroupResource d "metadata" with
  | (metadata, true) => <["metadata" := metadata]> data
  | _ => data
  end.

Definition identityGroupDelete (client : api.Logical)
    : M (option fmt.error) :=
  id ← d_Id;
  let path := identityGroupIDPath id in
  r ← remote_Delete client path;
  match api.err r with
  | Some err => mret (Some (fmt.Errorf "error IdentityGroup %q" [fmt.AString id]))
  | None => mret None
  end.

Definition identityGroupExists (client : api.Logical)
    : M (bool * option fmt.error) :=
  id ← d_Id;
  let path := identityGroupIDPath id in
  let key := id in
  '(path, key) ←
    (if Nat.eqb (String.length id) 0 then
       key ← d_Get identityGroupResource "name" ≫= assert_string;
       mret (identityGroupNamePath key, key)
     else mret (path, key));
  r ← remote_Read client path;
  match api.err r with
  | Some err =>
      mret (true,
            Some (fmt.Errorf "error checking if IdentityGroup %q exists: %s"
                    [fmt.AString key; fmt.AError err]))
  | None => mret (bool_decide (api.resp r ≠ None), None)
  end.

(** The keys the loop of [identityGroupRead] ranges over. *)
Definition refreshed_keys : list string :=
  ["name"; "type"; "metadata"; "member_entity_ids"; "member_group_ids"].

Section Handlers.

(** The classifier of expired-credential errors, a function of the
    package that lives in another file. *)
Variable isExpiredTokenErr : string → bool.

Definition identityGroupRead (client : api.Logical)
    : M (option fmt.error) :=
  id ← d_Id;
  let path := identityGroupIDPath id in
  r ← remote_Read client path;
  match api.err r with
  | Some err =>
      if isExpiredTokenErr err then mret None
      else mret (Some (fmt.Errorf
             "error reading AppRole auth backend role SecretID %q: %s"
             [fmt.AString id; fmt.AError err]))
  | None =>
      match api.resp r with
      | None => d_SetId EmptyString;; mret None
      | Some resp =>
          for_each refreshed_keys
            (λ k, d_Set identityGroupResource k (index (api.Data resp) k));;
          mret None
      end
  end.

Definition identityGroupCreate (client : api.Logical)
    : M (option fmt.error) :=
  name ← d_Get identityGroupResource "name" ≫= assert_string;
  typeValue ← d_Get identityGroupResource "type" ≫= assert_string;
  let path := identityGroupPath in
  d ← d_current;
  let data :=
    identityGroupUpdateFields d
      (<["name" := VString name]> (<["type" := VString typeValue]> ∅)) in
  r ← remote_Write client path data;
  match api.err r with
  | Some err =>
      mret (Some (fmt.Errorf "error writing IdentityGroup to %q: %s"
                    [fmt.AString name; fmt.AError err]))
  | None =>
      resp ← deref (api.resp r);
      d_Set identityGroupResource "id" (index (api.Data resp) "id");;
      id ← assert_string (index (api.Data resp) "id");
      d_SetId id;;
      identityGroupRead client
  end.

Definition identityGroupUpdate (client : api.Logical)
    : M (option fmt.error) :=
  id ← d_Id;
  let path := identityGroupIDPath id in
  d ← d_current;
  let data := identityGroupUpdateFields d ∅ in
  r ← remote_Write client path data;
  match api.err r with
  | Some err =>
      mret (Some (fmt.Errorf "error updating IdentityGroup %q: %s"
                    [fmt.AString id; fmt.AError err]))
  | None => identityGroupRead client
  end.

End Handlers.

(** * Specification *)

(** ** Mock stores *)

(** A client that gives the same three replies whatever it is asked. *)
Definition fixed_client (rd wr dl : api.Reply) : api.Logical :=
  {| api.Read := λ _ _, rd; api.Write := λ _ _ _, wr; api.Delete := λ _ _, dl |}.

Definition no_payload : api.Reply := {| api.resp := None; api.err := None |}.

Definition failure (msg : string) : api.Reply :=
  {| api.resp := None; api.err := Some msg |}.

Definition payload (l : list (string * value)) : api.Reply :=
  {| api.resp := Some {| api.Data := list_to_map l |}; api.err := None |}.

(** A classifier for the examples: the error of a store that no longer
    knows the accessor counts as an expired credential. *)
Definition expired (msg : string) : bool :=
  bool_decide (msg = "invalid accessor").

Definition g1 : schema.ResourceData :=
  {| schema.rd_id := "abc";
     schema.rd_fields := list_to_map [
       ("name", VString "g1"); ("type", VString "internal");
       ("policies", VList [VString "p1"]) ] |}.

(** A group that has not been created yet: no id, only its name. *)
Definition unborn : schema.ResourceData :=
  {| schema.rd_id := EmptyString;
     schema.rd_fields := list_to_map [("name", VString "g1")] |}.

Definition start (d : schema.ResourceData) : World :=
  {| tracked := d; calls := [] |}.

(** ** Notions the properties are stated with *)

(** The stored value of an attribute, nil when it is not set. *)
Definition stored (d : schema.ResourceData) (k : string) : value :=
  index (schema.rd_fields d) k.

(** The tracked state after the loop of [identityGroupRead] over [keys]. *)
Definition refresh (data : gmap string value) (keys : list string)
    (d : schema.ResourceData) : schema.ResourceData :=
  foldl (λ d k, schema.Set_ identityGroupResource d k (index data k)) d keys.
Arguments refresh _ _ _ : simpl never.

(** What [identityGroupRead] does, by the reply of the store. *)
Definition read_result (isExpiredTokenErr : string → bool)
    (d : schema.ResourceData) (r : api.Reply)
    : option fmt.error * schema.ResourceData :=
  match api.err r with
  | Some err =>
      if isExpiredTokenErr err then (None, d)
      else (Some (fmt.Errorf
              "error reading AppRole auth backend role SecretID %q: %s"
              [fmt.AString (schema.Id d); fmt.AError err]), d)
  | None =>
      match api.resp r with
      | None => (None, schema.SetId EmptyString d)
      | Some resp => (None, refresh (api.Data resp) refreshed_keys d)
      end
  end.

(** The string [d.Get(key).(string)] yields for a key of type string. *)
Definition get_string (d : schema.ResourceData) (key : string) : string :=
  match schema.Get identityGroupResource d key with
  | VString s => s
  | _ => EmptyString
  end.

(** The keys [identityGroupUpdateFields] may add to a payload. *)
Definition optional_keys : list string :=
  ["policies"; "member_entity_ids"; "member_group_ids"; "metadata"].

(** What [identityGroupUpdateFields] sends for a key: the value of an
    attribute that is set, nothing for one that is not. *)
Definition set_value (d : schema.ResourceData) (key : string) : option value :=
  match schema.GetOk identityGroupResource d key with
  | (v, true) => Some v
  | _ => None
  end.

(** The world once one more remote call has been issued. *)
Definition issue (w : World) (c : api.Call) : World :=
  {| tracked := tracked w; calls := calls w ++ [c] |}.

(** The payload [identityGroupCreate] writes. *)
Definition create_data (d : schema.ResourceData) : gmap string value :=
  identityGroupUpdateFields d
    (<["name" := VString (get_string d "name")]>
       (<["type" := VString (get_string d "type")]> ∅)).

(** The payload [identityGroupUpdate] writes. *)
Definition update_data (d : schema.ResourceData) : gmap string value :=
  identityGroupUpdateFields d ∅.

(** The key and the path [identityGroupExists] probes. *)
Definition probe_key (d : schema.ResourceData) : string :=
  if Nat.eqb (String.length (schema.Id d)) 0
  then get_string d "name" else schema.Id d.

Definition probe_path (d : schema.ResourceData) : string :=
  if Nat.eqb (String.length (schema.Id d)) 0
  then identityGroupNamePath (probe_key d)
  else identityGroupIDPath (schema.Id d).

(** The remote calls an invocation started in [w] has issued when it ends
    in [o]. *)
Definition issued {A} (w : World) (o : Outcome A) : list api.Call :=
  drop (length (calls w)) (calls (final o)).

(** The path a remote call addresses. *)
Definition path_of (c : api.Call) : string :=
  match c with
  | api.ReadCall path => path
  | api.WriteCall path _ => path
  | api.DeleteCall path => path
  end.

(** What [d.Set(key, v)] leaves under [key], given what was there. *)
Definition after_Set (key : string) (v : value) (old : option value)
    : option value :=
  match schema.Schema_ identityGroupResource !! key with
  | None => old
  | Some s =>
      match v with
      | VNil => None
      | _ =>
          match schema.coerce s v with
          | Some v' => Some v'
          | None => old
          end
      end
  end.

(** The five attributes read refreshes, by the type of their values. *)
Definition string_keys : list string := ["name"; "type"].

Definition list_keys : list string :=
  ["member_entity_ids"; "member_group_ids"].

(** A list of strings and a map of strings, as values. *)
Definition strings (l : list string) : value := VList (VString <$> l).

Definition string_map (m : list (string * string)) : value :=
  VMap ((λ kv, (kv.1, VString kv.2)) <$> m).

(** A payload value that has the type of the attribute [k]: a string for
    name and type, a list of strings for the two member lists, a map of
    strings for metadata. *)
Definition fits (k : string) (v : value) : Prop :=
  (k ∈ string_keys ∧ ∃ s, v = VString s)
  ∨ (k ∈ list_keys ∧ ∃ l, v = strings l)
  ∨ (k = "metadata" ∧ ∃ m, v = string_map m).


(** * Properties *)

(** ** Paths *)

Lemma append_empty (s : string) : s +:+ EmptyString = s.
Proof.
  induction s as [|c s IH]; [done |].
  change (String c (s +:+ EmptyString) = String c s). by rewrite IH.
Qed.

Lemma identityGroupIDPath_eq (id : string) :
  identityGroupIDPath id = "/identity/group/id/" +:+ id.
Proof. unfold identityGroupIDPath. simpl. rewrite append_empty. reflexivity. Qed.

Lemma identityGroupNamePath_eq (name : string) :
  identityGroupNamePath name = "/identity/group/name/" +:+ name.
Proof. unfold identityGroupNamePath. simpl. rewrite append_empty. reflexivity. Qed.

(** ** The tracked state under [Set] *)

Lemma Set_id d key v :
  schema.rd_id (schema.Set_ identityGroupResource d key v) = schema.rd_id d.
Proof.
  unfold schema.Set_.
  destruct (schema.Schema_ identityGroupResource !! key) as [s|]; [| done].
  destruct v; try done; by destruct (schema.coerce s _).
Qed.

Lemma Set_other d key v k :
  k ≠ key →
  schema.rd_fields (schema.Set_ identityGroupResource d key v) !! k
  = schema.rd_fields d !! k.
Proof.
  intros Hne. unfold schema.Set_.
  destruct (schema.Schema_ identityGroupResource !! key) as [s|]; [| done].
  destruct v; simpl; try (by rewrite lookup_delete_ne);
    destruct (schema.coerce s _); simpl; by rewrite ?lookup_insert_ne.
Qed.

Lemma Set_lookup d key v :
  schema.rd_fields (schema.Set_ identityGroupResource d key v) !! key
  = after_Set key v (schema.rd_fields d !! key).
Proof.
  unfold schema.Set_, after_Set.
  destruct (schema.Schema_ identityGroupResource !! key) as [s|]; [| done].
  destruct v; simpl; try (by rewrite lookup_delete_eq);
    destruct (schema.coerce s _); simpl; by rewrite ?lookup_insert_eq.
Qed.

Lemma after_Set_idempotent key v old :
  after_Set key v (after_Set key v old) = after_Set key v old.
Proof.
  unfold after_Set.
  destruct (schema.Schema_ identityGroupResource !! key) as [s|]; [| done].
  destruct v; try done; by destruct (schema.coerce s _).
Qed.

Lemma schema_string_key k :
  k ∈ string_keys →
  ∃ s, schema.Schema_ identityGroupResource !! k = Some s
       ∧ schema.Type_ s = schema.TypeString.
Proof.
  unfold string_keys. rewrite !elem_of_cons, elem_of_nil.
  intros [-> | [-> | []]]; eexists; (split; [by vm_compute | done]).
Qed.

Lemma schema_list_key k :
  k ∈ list_keys →
  ∃ s, schema.Schema_ identityGroupResource !! k = Some s
       ∧ schema.Type_ s = schema.TypeList
       ∧ schema.Elem s = Some schema.TypeString.
Proof.
  unfold list_keys. rewrite !elem_of_cons, elem_of_nil.
  intros [-> | [-> | []]]; eexists; (split; [by vm_compute | done]).
Qed.

Lemma schema_metadata :
  ∃ s, schema.Schema_ identityGroupResource !! "metadata" = Some s
       ∧ schema.Type_ s = schema.TypeMap
       ∧ schema.Elem s = Some schema.TypeString.
Proof. eexists. split; [by vm_compute | done]. Qed.

Lemma five_keys k :
  k ∈ ["name"; "type"; "metadata"; "member_entity_ids"; "member_group_ids"] →
  k ∈ string_keys ∨ k ∈ list_keys ∨ k = "metadata".
Proof.
  unfold string_keys, list_keys. rewrite !elem_of_cons, !elem_of_nil.
  intros H. destruct_or!; by auto 10.
Qed.

Lemma mapM_as_element_strings (l : list string) :
  mapM schema.as_element (VString <$> l) = Some (VString <$> l).
Proof. apply mapM_Some_2. induction l; by constructor. Qed.

Lemma mapM_as_element_string_map (m : list (string * string)) :
  mapM (λ kv : string * value, pair kv.1 <$> schema.as_element kv.2)
    ((λ kv : string * string, (kv.1, VString kv.2)) <$> m)
  = Some ((λ kv : string * string, (kv.1, VString kv.2)) <$> m).
Proof. apply mapM_Some_2. induction m; by constructor. Qed.

Lemma after_Set_nil k old :
  k ∈ ["name"; "type"; "metadata"; "member_entity_ids"; "member_group_ids"] →
  after_Set k VNil old = None.
Proof.
  intros Hk. unfold after_Set.
  apply five_keys in Hk as [Hk | [Hk | ->]].
  - by destruct (schema_string_key k Hk) as (s & -> & _).
  - by destruct (schema_list_key k Hk) as (s & -> & _).
  - by destruct schema_metadata as (s & -> & _).
Qed.

Lemma after_Set_fits k v old : fits k v → after_Set k v old = Some v.
Proof.
  unfold after_Set, schema.coerce.
  intros [[Hk [x ->]] | [[Hk [l ->]] | [-> [m ->]]]].
  - by destruct (schema_string_key k Hk) as (s & -> & ->).
  - destruct (schema_list_key k Hk) as (s & -> & -> & ->).
    unfold strings. by rewrite mapM_as_element_strings.
  - destruct schema_metadata as (s & -> & -> & ->).
    unfold string_map. by rewrite mapM_as_element_string_map.
Qed.



Lemma refresh_cons data x keys d :
  refresh data (x :: keys) d
  = refresh data keys (schema.Set_ identityGroupResource d x (index data x)).
Proof. reflexivity. Qed.

Lemma refresh_id data keys d :
  schema.rd_id (refresh data keys d) = schema.rd_id d.
Proof.
  revert d. induction keys as [|x keys IH]; intros d; [done |].
  rewrite refresh_cons, IH. apply Set_id.
Qed.

Lemma refresh_other data keys d k :
  k ∉ keys →
  schema.rd_fields (refresh data keys d) !! k = schema.rd_fields d !! k.
Proof.
  revert d. induction keys as [|x keys IH]; intros d Hk; [done |].
  apply not_elem_of_cons in Hk as [Hne Hk].
  rewrite refresh_cons, IH by done. by apply Set_other.
Qed.

Lemma refresh_lookup data keys d k :
  k ∈ keys →
  schema.rd_fields (refresh data keys d) !! k
  = after_Set k (index data k) (schema.rd_fields d !! k).
Proof.
  revert d. induction keys as [|x keys IH]; intros d Hk.
  - by apply elem_of_nil in Hk.
  - rewrite refresh_cons.
    destruct (decide (k ∈ keys)) as [Hin | Hout].
    + rewrite IH by done. destruct (decide (k = x)) as [-> | Hne].
      * by rewrite Set_lookup, after_Set_idempotent.
      * by rewrite Set_other.
    + apply elem_of_cons in Hk as [-> | Hin]; [| done].
      rewrite refresh_other by done. apply Set_lookup.
Qed.

Lemma for_each_Set data keys w :
  for_each keys (λ k, d_Set identityGroupResource k (index data k)) w
  = Return tt {| tracked := refresh data keys (tracked w); calls := calls w |}.
Proof.
  revert w. induction keys as [|x keys IH]; intros w.
  - by destruct w.
  - rewrite refresh_cons. simpl. unfold mbind, M_bind. simpl. by rewrite IH.
Qed.

(** ** Read *)

Lemma identityGroupRead_run isExpiredTokenErr client w :
  let path := identityGroupIDPath (schema.Id (tracked w)) in
  let res := read_result isExpiredTokenErr (tracked w)
               (api.Read client (calls w) path) in
  identityGroupRead isExpiredTokenErr client w
  = Return res.1 {| tracked := res.2; calls := calls w ++ [api.ReadCall path] |}.
Proof.
  unfold identityGroupRead, read_result, mbind, M_bind.
  cbn -[for_each refreshed_keys identityGroupIDPath].
  destruct (api.Read client (calls w) _) as [resp [err|]];
    cbn -[for_each refreshed_keys identityGroupIDPath].
  - by destruct (isExpiredTokenErr err).
  - destruct resp as [resp|]; [| done].
    by rewrite for_each_Set.
Qed.

(** C1: when the remote read succeeds without a payload (nil response, nil
    error), read clears the tracked id to the empty string, leaves the
    attributes alone and returns no error. *)
Theorem read_absent_clears_id (isExpiredTokenErr : string → bool)
    (client : api.Logical) (w : World) :
  api.Read client (calls w) (identityGroupIDPath (schema.Id (tracked w)))
    = no_payload →
  ∃ w', identityGroupRead isExpiredTokenErr client w = Return None w'
        ∧ schema.Id (tracked w') = EmptyString
        ∧ schema.rd_fields (tracked w') = schema.rd_fields (tracked w).
Proof.
  intros Hreply. eexists. unfold identityGroupRead, mbind, M_bind.
  simpl. rewrite Hreply. simpl. done.
Qed.

Lemma read_absent_clears_id_witness :
  api.Read (fixed_client no_payload no_payload no_payload) (calls (start g1))
    (identityGroupIDPath (schema.Id (tracked (start g1)))) = no_payload
  ∧ ∃ w', identityGroupRead expired
            (fixed_client no_payload no_payload no_payload) (start g1)
          = Return None w'
        ∧ schema.Id (tracked w') = EmptyString
        ∧ schema.rd_fields (tracked w') = schema.rd_fields (tracked (start g1)).
Proof.
  split; [reflexivity |].
  apply (read_absent_clears_id expired
           (fixed_client no_payload no_payload no_payload) (start g1)).
  reflexivity.
Defined.

(** C3: when the remote read fails with an error classified as an expired
    credential, read returns no error and the tracked state (the id and every
    attribute) is exactly what it was before the call. *)
Theorem read_expired_no_change (isExpiredTokenErr : string → bool)
    (client : api.Logical) (w : World) (resp : option api.Secret)
    (e : string) :
  api.Read client (calls w) (identityGroupIDPath (schema.Id (tracked w)))
    = {| api.resp := resp; api.err := Some e |} →
  isExpiredTokenErr e = true →
  ∃ w', identityGroupRead isExpiredTokenErr client w = Return None w'
        ∧ tracked w' = tracked w.
Proof.
  intros Hreply Hexp. eexists. rewrite identityGroupRead_run.
  unfold read_result. rewrite Hreply. simpl. rewrite Hexp. done.
Qed.

Lemma read_expired_no_change_witness :
  ∃ w', identityGroupRead expired
          (fixed_client (failure "invalid accessor") no_payload no_payload)
          (start g1)
        = Return None w'
        ∧ tracked w' = tracked (start g1).
Proof.
  apply (read_expired_no_change expired
           (fixed_client (failure "invalid accessor") no_payload no_payload)
           (start g1) None "invalid accessor"); reflexivity.
Defined.

(** C7: whatever the store replies, read returns and leaves the tracked
    [policies] untouched; more generally it leaves every attribute other
    than name, type, metadata, member_entity_ids and member_group_ids
    untouched. Each of these five is refreshed when the store replies with
    a payload: it is cleared when the payload has nothing under the key, and
    takes the value of the payload when that value has the type of the
    attribute. *)
Theorem read_keeps_policies (isExpiredTokenErr : string → bool)
    (client : api.Logical) (w : World) :
  let out := identityGroupRead isExpiredTokenErr client w in
  let reply :=
    api.Read client (calls w) (identityGroupIDPath (schema.Id (tracked w))) in
  (∃ e w', out = Return e w')
  ∧ schema.rd_fields (tracked (final out)) !! "policies"
    = schema.rd_fields (tracked w) !! "policies"
  ∧ schema.Get identityGroupResource (tracked (final out)) "policies"
    = schema.Get identityGroupResource (tracked w) "policies"
  ∧ (∀ k,
       k ∉ ["name"; "type"; "metadata"; "member_entity_ids";
            "member_group_ids"] →
       schema.rd_fields (tracked (final out)) !! k
       = schema.rd_fields (tracked w) !! k)
  ∧ (∀ resp k, reply = {| api.resp := Some resp; api.err := None |} →
       k ∈ ["name"; "type"; "metadata"; "member_entity_ids";
            "member_group_ids"] →
       (index (api.Data resp) k = VNil →
        schema.rd_fields (tracked (final out)) !! k = None)
       ∧ (fits k (index (api.Data resp) k) →
          schema.rd_fields (tracked (final out)) !! k
          = Some (index (api.Data resp) k))).
Proof.
  intros out reply. subst out. rewrite identityGroupRead_run. fold reply.
  cbn [final tracked].
  assert (Hframe : ∀ k, k ∉ refreshed_keys →
            schema.rd_fields (read_result isExpiredTokenErr (tracked w) reply).2 !! k
            = schema.rd_fields (tracked w) !! k).
  { intros k Hk. unfold read_result.
    destruct reply as [resp [e|]]; simpl.
    - by destruct (isExpiredTokenErr e).
    - destruct resp as [resp|]; simpl; [by apply refresh_other | done]. }
  assert (Hpol : "policies" ∉ refreshed_keys).
  { unfold refreshed_keys. rewrite !not_elem_of_cons. repeat split; try done.
    apply not_elem_of_nil. }
  split; [by eauto |]. split; [by apply Hframe |].
  split; [unfold schema.Get; by rewrite Hframe |].
  split; [exact Hframe |].
  intros resp k -> Hk. simpl. rewrite refresh_lookup by exact Hk. split.
  - intros ->. by apply after_Set_nil.
  - apply after_Set_fits.
Qed.

Lemma read_keeps_policies_witness :
  let client :=
    fixed_client
      (payload [("name", VString "renamed"); ("type", VString "internal")])
      no_payload no_payload in
  let out := identityGroupRead expired client (start g1) in
  schema.rd_fields (tracked (final out)) !! "policies"
    = Some (VList [VString "p1"])
  ∧ schema.rd_fields (tracked (final out)) !! "id" = None
  ∧ schema.rd_fields (tracked (final out)) !! "name"
    = Some (VString "renamed")
  ∧ schema.rd_fields (tracked (final out)) !! "metadata" = None.
Proof.
  intros client out.
  destruct (read_keeps_policies expired client (start g1))
    as (_ & Hpol & _ & Hframe & Hfresh).
  pose (resp := {| api.Data :=
                     list_to_map [("name", VString "renamed");
                                  ("type", VString "internal")] |}).
  split; [exact Hpol |]. split; [| split].
  - apply (Hframe "id").
    rewrite !not_elem_of_cons. repeat split; try done. apply not_elem_of_nil.
  - destruct (Hfresh resp "name") as [_ Hname]; [reflexivity | |].
    { apply elem_of_cons. by left. }
    etrans; [apply Hname | vm_compute; reflexivity].
    left. split; [apply elem_of_cons; by left |]. by exists "renamed".
  - destruct (Hfresh resp "metadata") as [Hnil _]; [reflexivity | |].
    { rewrite !elem_of_cons. by auto. }
    apply Hnil. vm_compute. reflexivity.
Defined.




(** The tracked type of [g1] is cleared by a payload that has no type. *)
Example read_clears_missing_key :
  schema.rd_fields g1 !! "type" = Some (VString "internal")
  ∧ schema.rd_fields
      (tracked (final (identityGroupRead expired
         (fixed_client (payload [("name", VString "renamed")])
            no_payload no_payload)
         (start g1)))) !! "type" = None.
Proof. split; vm_compute; reflexivity. Qed.

(** ** Attributes read through the schema *)

Lemma Get_name (d : schema.ResourceData) :
  schema.Get identityGroupResource d "name" = VString (get_string d "name").
Proof.
  unfold get_string, schema.Get.
  change (schema.Schema_ identityGroupResource !! "name")
    with (Some {| schema.Type_ := schema.TypeString; schema.Required := true;
                  schema.Optional := false; schema.Computed := false;
                  schema.ForceNew := true; schema.Default := None;
                  schema.Elem := None;
                  schema.Description := "Name of the group." |}).
  simpl. destruct (schema.rd_fields d !! "name") as [[]|]; done.
Qed.

Lemma Get_type (d : schema.ResourceData) :
  schema.Get identityGroupResource d "type" = VString (get_string d "type").
Proof.
  unfold get_string, schema.Get.
  destruct (schema.Schema_ identityGroupResource !! "type") as [sch|] eqn:Hs;
    [| by vm_compute in Hs].
  assert (schema.Type_ sch = schema.TypeString) as ->
    by (vm_compute in Hs; by injection Hs as <-).
  destruct (schema.rd_fields d !! "type") as [[]|]; done.
Qed.

Lemma set_value_iff d key v :
  set_value d key = Some v ↔ schema.GetOk identityGroupResource d key = (v, true).
Proof.
  unfold set_value.
  destruct (schema.GetOk identityGroupResource d key) as [v' [|]];
    split; intros H; by simplify_eq.
Qed.

Lemma set_value_not_zero d key v :
  set_value d key = Some v → schema.is_zero v = false.
Proof.
  intros H%set_value_iff. unfold schema.GetOk in H.
  destruct (schema.Schema_ identityGroupResource !! key); [| by simplify_eq].
  destruct (schema.rd_fields d !! key) as [v'|]; [| by simplify_eq].
  destruct (schema.has_type _ v'); simplify_eq.
  by apply negb_true_iff.
Qed.

Lemma identityGroupUpdateFields_optional d data k :
  k ∈ optional_keys →
  identityGroupUpdateFields d data !! k
  = match set_value d k with Some v => Some v | None => data !! k end.
Proof.
  unfold optional_keys. rewrite !elem_of_cons, elem_of_nil.
  unfold identityGroupUpdateFields, set_value.
  intros [-> | [-> | [-> | [-> | []]]]];
    destruct (schema.GetOk identityGroupResource d "policies") as [? []];
    destruct (schema.GetOk identityGroupResource d "member_entity_ids") as [? []];
    destruct (schema.GetOk identityGroupResource d "member_group_ids") as [? []];
    destruct (schema.GetOk identityGroupResource d "metadata") as [? []];
    by simplify_map_eq.
Qed.

Lemma identityGroupUpdateFields_other d data k :
  k ∉ optional_keys → identityGroupUpdateFields d data !! k = data !! k.
Proof.
  unfold optional_keys. rewrite !not_elem_of_cons.
  intros (? & ? & ? & ? & _). unfold identityGroupUpdateFields.
  destruct (schema.GetOk identityGroupResource d "policies") as [? []];
    destruct (schema.GetOk identityGroupResource d "member_entity_ids") as [? []];
    destruct (schema.GetOk identityGroupResource d "member_group_ids") as [? []];
    destruct (schema.GetOk identityGroupResource d "metadata") as [? []];
    by simplify_map_eq.
Qed.

(** ** Running the handlers *)

Lemma identityGroupDelete_run client w :
  let id := schema.Id (tracked w) in
  let path := identityGroupIDPath id in
  identityGroupDelete client w
  = Return
      (match api.err (api.Delete client (calls w) path) with
       | Some _ => Some (fmt.Errorf "error IdentityGroup %q" [fmt.AString id])
       | None => None
       end)
      (issue w (api.DeleteCall path)).
Proof.
  unfold identityGroupDelete, mbind, M_bind.
  cbn -[identityGroupIDPath].
  by destruct (api.err (api.Delete client (calls w) _)).
Qed.

Lemma identityGroupExists_run client w :
  let key := probe_key (tracked w) in
  let path := probe_path (tracked w) in
  let r := api.Read client (calls w) path in
  identityGroupExists client w
  = Return
      (match api.err r with
       | Some err =>
           (true,
            Some (fmt.Errorf "error checking if IdentityGroup %q exists: %s"
                    [fmt.AString key; fmt.AError err]))
       | None => (bool_decide (api.resp r ≠ None), None)
       end)
      (issue w (api.ReadCall path)).
Proof.
  unfold identityGroupExists, mbind, M_bind, d_Get, d_Id.
  cbn -[identityGroupIDPath identityGroupNamePath schema.Get probe_key
        probe_path].
  unfold probe_path, probe_key.
  destruct (Nat.eqb (String.length (schema.Id (tracked w))) 0).
  - rewrite Get_name. cbn -[identityGroupIDPath identityGroupNamePath].
    by destruct (api.err (api.Read client (calls w) _)).
  - cbn -[identityGroupIDPath identityGroupNamePath].
    by destruct (api.err (api.Read client (calls w) _)).
Qed.

Lemma identityGroupUpdate_run isExpiredTokenErr client w :
  let id := schema.Id (tracked w) in
  let path := identityGroupIDPath id in
  let data := update_data (tracked w) in
  let w1 := issue w (api.WriteCall path data) in
  identityGroupUpdate isExpiredTokenErr client w
  = match api.err (api.Write client (calls w) path data) with
    | Some err =>
        Return (Some (fmt.Errorf "error updating IdentityGroup %q: %s"
                        [fmt.AString id; fmt.AError err])) w1
    | None => identityGroupRead isExpiredTokenErr client w1
    end.
Proof.
  unfold identityGroupUpdate, mbind, M_bind, update_data.
  cbn -[identityGroupIDPath identityGroupUpdateFields identityGroupRead].
  by destruct (api.err (api.Write client (calls w) _ _)).
Qed.

Lemma identityGroupCreate_run isExpiredTokenErr client w :
  let d := tracked w in
  let data := create_data d in
  let w1 := issue w (api.WriteCall identityGroupPath data) in
  let r := api.Write client (calls w) identityGroupPath data in
  identityGroupCreate isExpiredTokenErr client w
  = match api.err r with
    | Some err =>
        Return (Some (fmt.Errorf "error writing IdentityGroup to %q: %s"
                        [fmt.AString (get_string d "name"); fmt.AError err])) w1
    | None =>
        match api.resp r with
        | None =>
            Panic "invalid memory address or nil pointer dereference" w1
        | Some resp =>
            let w2 :=
              {| tracked :=
                   schema.Set_ identityGroupResource d "id"
                     (index (api.Data resp) "id");
                 calls := calls w1 |} in
            match index (api.Data resp) "id" with
            | VString id =>
                identityGroupRead isExpiredTokenErr client
                  {| tracked := schema.SetId id (tracked w2);
                     calls := calls w1 |}
            | _ => Panic "interface conversion: interface {} is not string" w2
            end
        end
    end.
Proof.
  unfold identityGroupCreate, mbind, M_bind, create_data, d_Get.
  cbn -[identityGroupUpdateFields identityGroupRead schema.Get].
  rewrite Get_name. cbn -[identityGroupUpdateFields identityGroupRead schema.Get].
  rewrite Get_type. cbn -[identityGroupUpdateFields identityGroupRead schema.Get].
  destruct (api.Write client (calls w) _ _) as [resp [err|]];
    cbn -[identityGroupUpdateFields identityGroupRead schema.Get]; [done |].
  destruct resp as [resp|];
    cbn -[identityGroupUpdateFields identityGroupRead schema.Get]; [| done].
  by destruct (index (api.Data resp) "id").
Qed.

(** ** The calls of one invocation *)

Lemma issued_issue {A} (w : World) (o : Outcome A) (l : list api.Call) :
  calls (final o) = calls w ++ l → issued w o = l.
Proof. intros H. unfold issued. rewrite H. apply drop_app_length. Qed.

Lemma read_calls isExpiredTokenErr client w :
  calls (final (identityGroupRead isExpiredTokenErr client w))
  = calls w
    ++ [api.ReadCall (identityGroupIDPath (schema.Id (tracked w)))].
Proof. by rewrite identityGroupRead_run. Qed.

Lemma read_returns isExpiredTokenErr client w :
  ∃ e w', identityGroupRead isExpiredTokenErr client w = Return e w'.
Proof. rewrite identityGroupRead_run. by eauto. Qed.

Lemma empty_id (id : string) :
  Nat.eqb (String.length id) 0 = true ↔ id = EmptyString.
Proof. destruct id; simpl; split; done. Qed.

(** ** Payloads *)

(** C2: the payload create writes holds name and type, and each of
    metadata, policies, member_group_ids and member_entity_ids exactly when
    that attribute is set (with its value, which is then not the empty
    value), and holds no other key; the payload update writes holds these
    optional attributes by the same rule and nothing else, so neither name
    nor type. *)
Theorem payload_keys (isExpiredTokenErr : string → bool)
    (client : api.Logical) (w : World) :
  let d := tracked w in
  let by_rule (data : gmap string value) :=
    (∀ k v, k ∈ optional_keys →
       (data !! k = Some v
        ↔ schema.GetOk identityGroupResource d k = (v, true)))
    ∧ (∀ k v, k ∈ optional_keys → data !! k = Some v →
         schema.is_zero v = false) in
  (∃ data,
     calls (final (identityGroupCreate isExpiredTokenErr client w))
       !! length (calls w)
     = Some (api.WriteCall identityGroupPath data)
     ∧ schema.Get identityGroupResource d "name"
       = VString (get_string d "name")
     ∧ schema.Get identityGroupResource d "type"
       = VString (get_string d "type")
     ∧ data !! "name" = Some (VString (get_string d "name"))
     ∧ data !! "type" = Some (VString (get_string d "type"))
     ∧ by_rule data
     ∧ (∀ k, is_Some (data !! k) →
          k = "name" ∨ k = "type" ∨ k ∈ optional_keys))
  ∧ (∃ data,
       calls (final (identityGroupUpdate isExpiredTokenErr client w))
         !! length (calls w)
       = Some (api.WriteCall (identityGroupIDPath (schema.Id d)) data)
       ∧ data !! "name" = None
       ∧ data !! "type" = None
       ∧ by_rule data
       ∧ (∀ k, is_Some (data !! k) → k ∈ optional_keys)).
Proof.
  intros d by_rule.
  assert (Hname : "name" ∉ optional_keys).
  { unfold optional_keys. rewrite !not_elem_of_cons.
    repeat split; try done. apply not_elem_of_nil. }
  assert (Htype : "type" ∉ optional_keys).
  { unfold optional_keys. rewrite !not_elem_of_cons.
    repeat split; try done. apply not_elem_of_nil. }
  assert (Hrule : ∀ base : gmap string value,
            (∀ k, k ∈ optional_keys → base !! k = None) →
            by_rule (identityGroupUpdateFields d base)).
  { intros base Hbase. split.
    - intros k v Hk. rewrite identityGroupUpdateFields_optional by done.
      rewrite <- set_value_iff.
      destruct (set_value d k); [done |]. by rewrite Hbase.
    - intros k v Hk. rewrite identityGroupUpdateFields_optional by done.
      destruct (set_value d k) as [v'|] eqn:Hv.
      + intros [= <-]. by eapply set_value_not_zero.
      + by rewrite Hbase. }
  split.
  - exists (create_data d). split; [| split; [| split; [| split; [| split; [| split]]]]].
    + rewrite identityGroupCreate_run. fold d.
      cbn zeta.
      destruct (api.Write client (calls w) identityGroupPath (create_data d))
        as [resp [err|]]; simpl.
      { by rewrite list_lookup_middle. }
      destruct resp as [resp|]; simpl; [| by rewrite list_lookup_middle].
      destruct (index (api.Data resp) "id"); simpl;
        try by rewrite list_lookup_middle.
      rewrite read_calls. simpl.
      rewrite lookup_app_l by (rewrite length_app; simpl; lia).
      by rewrite list_lookup_middle.
    + apply Get_name.
    + apply Get_type.
    + unfold create_data.
      rewrite identityGroupUpdateFields_other by done. by simplify_map_eq.
    + unfold create_data.
      rewrite identityGroupUpdateFields_other by done. by simplify_map_eq.
    + apply Hrule. intros k Hk.
      rewrite lookup_insert_ne by (by intros <-).
      rewrite lookup_insert_ne by (by intros <-). done.
    + intros k Hk.
      destruct (decide (k ∈ optional_keys)) as [|Hout]; [by auto |].
      unfold create_data in Hk.
      rewrite identityGroupUpdateFields_other in Hk by done.
      destruct (decide (k = "name")) as [|Hn]; [by auto |].
      destruct (decide (k = "type")) as [|Ht]; [by auto |].
      rewrite !lookup_insert_ne in Hk by done.
      rewrite lookup_empty in Hk. by destruct Hk.
  - exists (update_data d). split; [| split; [| split; [| split]]].
    + rewrite identityGroupUpdate_run. fold d. cbn zeta.
      destruct (api.err (api.Write client (calls w) _ (update_data d))); simpl.
      { by rewrite list_lookup_middle. }
      rewrite read_calls. simpl.
      rewrite lookup_app_l by (rewrite length_app; simpl; lia).
      by rewrite list_lookup_middle.
    + unfold update_data. by rewrite identityGroupUpdateFields_other.
    + unfold update_data. by rewrite identityGroupUpdateFields_other.
    + by apply Hrule.
    + intros k Hk.
      destruct (decide (k ∈ optional_keys)) as [|Hout]; [done |].
      unfold update_data in Hk.
      rewrite identityGroupUpdateFields_other, lookup_empty in Hk by done.
      by destruct Hk.
Qed.

Lemma payload_keys_witness :
  let client := fixed_client no_payload (failure "sealed") no_payload in
  ∃ data,
    calls (final (identityGroupCreate expired client (start g1)))
      !! length (calls (start g1))
    = Some (api.WriteCall identityGroupPath data)
    ∧ data !! "name" = Some (VString "g1")
    ∧ data !! "policies" = Some (VList [VString "p1"])
    ∧ data !! "metadata" = None.
Proof.
  intros client.
  destruct (payload_keys expired client (start g1))
    as [(data & Hcall & _ & _ & Hname & _ & [Hrule _] & _) _].
  exists data. split; [exact Hcall |]. split; [exact Hname |]. split.
  - apply Hrule; [| vm_compute; reflexivity].
    apply elem_of_cons. by left.
  - destruct (data !! "metadata") as [v|] eqn:Hv; [| reflexivity].
    apply Hrule in Hv; [by vm_compute in Hv |].
    unfold optional_keys. rewrite !elem_of_cons. by auto.
Defined.

(** ** Exists *)

Lemma name_path_not_id_path (name id : string) :
  identityGroupNamePath name ≠ identityGroupIDPath id.
Proof.
  rewrite identityGroupNamePath_eq, identityGroupIDPath_eq.
  intros H. vm_compute in H. discriminate H.
Qed.

(** C4: with a non-empty tracked id, exists issues one read, against
    [/identity/group/id/{id}]; with an empty tracked id it issues one read,
    against [/identity/group/name/{name}] for the tracked name, and no read
    against an id-addressed path. *)
Theorem exists_probes_by_id_or_name (client : api.Logical) (w : World) :
  let id := schema.Id (tracked w) in
  let name := get_string (tracked w) "name" in
  let out := identityGroupExists client w in
  schema.Get identityGroupResource (tracked w) "name" = VString name
  ∧ (id ≠ EmptyString →
     issued w out = [api.ReadCall ("/identity/group/id/" +:+ id)])
  ∧ (id = EmptyString →
     issued w out = [api.ReadCall ("/identity/group/name/" +:+ name)]
     ∧ ∀ x, api.ReadCall (identityGroupIDPath x) ∉ issued w out).
Proof.
  intros id name out. split; [apply Get_name |].
  assert (Hout : issued w out = [api.ReadCall (probe_path (tracked w))]).
  { apply issued_issue. subst out. by rewrite identityGroupExists_run. }
  rewrite Hout. unfold probe_path, probe_key. fold id name.
  destruct (Nat.eqb (String.length id) 0) eqn:Hlen; split.
  - intros Hid. by apply empty_id in Hlen.
  - intros _. split; [by rewrite identityGroupNamePath_eq |].
    intros x Hx%list_elem_of_singleton.
    apply (name_path_not_id_path name x). congruence.
  - intros _. by rewrite identityGroupIDPath_eq.
  - intros Hid. apply empty_id in Hid. congruence.
Qed.

Lemma exists_probes_by_id_or_name_witness :
  let client := fixed_client no_payload no_payload no_payload in
  issued (start unborn) (identityGroupExists client (start unborn))
    = [api.ReadCall "/identity/group/name/g1"]
  ∧ issued (start g1) (identityGroupExists client (start g1))
    = [api.ReadCall "/identity/group/id/abc"].
Proof.
  intros client. split.
  - destruct (exists_probes_by_id_or_name client (start unborn))
      as (_ & _ & Hname).
    etrans; [apply Hname; reflexivity | vm_compute; reflexivity].
  - destruct (exists_probes_by_id_or_name client (start g1))
      as (_ & Hid & _).
    etrans; [apply Hid; discriminate | vm_compute; reflexivity].
Defined.

(** C5: when the probing read succeeds, exists returns no error and the
    boolean is true exactly when the read yields a response; when the read
    fails, exists returns true together with an error built from the probed
    key and the error of the read. *)
Theorem exists_result (client : api.Logical) (w : World) :
  let r := api.Read client (calls w) (probe_path (tracked w)) in
  let out := identityGroupExists client w in
  (api.err r = None →
   ∃ b w', out = Return (b, None) w' ∧ (b = true ↔ api.resp r ≠ None))
  ∧ (∀ e, api.err r = Some e →
     ∃ w', out
           = Return
               (true,
                Some (fmt.Errorf
                        "error checking if IdentityGroup %q exists: %s"
                        [fmt.AString (probe_key (tracked w)); fmt.AError e]))
               w').
Proof.
  intros r out. subst out. rewrite identityGroupExists_run. fold r.
  split.
  - intros ->. eexists _, _. split; [done |]. apply bool_decide_eq_true.
  - intros e ->. by eexists.
Qed.

Lemma exists_result_witness :
  (∃ b w',
     identityGroupExists (fixed_client no_payload no_payload no_payload)
       (start g1) = Return (b, None) w'
     ∧ (b = true ↔ (None : option api.Secret) ≠ None))
  ∧ (∃ w',
       identityGroupExists
         (fixed_client (failure "sealed") no_payload no_payload) (start g1)
       = Return
           (true,
            Some (fmt.Errorf "error checking if IdentityGroup %q exists: %s"
                    [fmt.AString (probe_key g1); fmt.AError "sealed"]))
           w').
Proof.
  split.
  - apply (exists_result (fixed_client no_payload no_payload no_payload)
             (start g1)).
    reflexivity.
  - apply (exists_result
             (fixed_client (failure "sealed") no_payload no_payload)
             (start g1)).
    reflexivity.
Defined.

(** A response that carries no data is still a response: exists returns
    true on it. *)
Example exists_true_on_empty_data :
  identityGroupExists (fixed_client (payload []) no_payload no_payload)
    (start g1)
  = Return (true, None)
      (issue (start g1) (api.ReadCall "/identity/group/id/abc")).
Proof. vm_compute. reflexivity. Qed.

(** ** Calls per invocation *)

(** C6 as stated does not hold of update: with a store that accepts the
    write, update goes on to read the group back, two remote calls in all. *)
Lemma update_issues_two_calls :
  let client := fixed_client no_payload no_payload no_payload in
  let out := identityGroupUpdate expired client (start g1) in
  issued (start g1) out
  = [api.WriteCall "/identity/group/id/abc"
       (<["policies" := VList [VString "p1"]]> ∅);
     api.ReadCall "/identity/group/id/abc"]
  ∧ length (issued (start g1) out) ≠ 1.
Proof. split; [vm_compute; reflexivity | vm_compute; discriminate]. Qed.

(** C6, amended: delete issues exactly one remote call; update issues its
    write alone when the write fails, and the write followed by one read
    when it succeeds; create issues its write alone when the write fails or
    its response carries no string id, and the write followed by one read
    otherwise. *)
Theorem calls_per_invocation (isExpiredTokenErr : string → bool)
    (client : api.Logical) (w : World) :
  let d := tracked w in
  let by_id := identityGroupIDPath (schema.Id d) in
  let update_write := api.WriteCall by_id (update_data d) in
  let create_write := api.WriteCall identityGroupPath (create_data d) in
  let created :=
    api.Write client (calls w) identityGroupPath (create_data d) in
  issued w (identityGroupDelete client w) = [api.DeleteCall by_id]
  ∧ issued w (identityGroupUpdate isExpiredTokenErr client w)
    = match api.err (api.Write client (calls w) by_id (update_data d)) with
      | Some _ => [update_write]
      | None => [update_write; api.ReadCall by_id]
      end
  ∧ issued w (identityGroupCreate isExpiredTokenErr client w)
    = match api.err created, api.resp created with
      | None, Some resp =>
          match index (api.Data resp) "id" with
          | VString id => [create_write; api.ReadCall (identityGroupIDPath id)]
          | _ => [create_write]
          end
      | _, _ => [create_write]
      end.
Proof.
  intros d by_id update_write create_write created.
  split; [| split]; apply issued_issue.
  - by rewrite identityGroupDelete_run.
  - rewrite identityGroupUpdate_run. fold d by_id. cbn zeta.
    destruct (api.err (api.Write client (calls w) by_id (update_data d)));
      [done |].
    rewrite read_calls. simpl. by rewrite <- app_assoc.
  - rewrite identityGroupCreate_run. fold d. cbn zeta. fold created.
    destruct (api.err created); [done |].
    destruct (api.resp created) as [resp|]; [| done].
    destruct (index (api.Data resp) "id"); try done.
    rewrite read_calls. simpl. by rewrite <- app_assoc.
Qed.

(** ** Create *)

(** C8: when the remote write errors, create returns an error built from
    the name and the error of the write, after that one call and without
    touching the tracked state; when the write succeeds, nothing guards the
    id of the response: a nil response, a response without [id] and a
    response whose [id] is not a string each end in a panic, and only a
    string [id] lets create return. *)
Theorem create_unguarded_id (isExpiredTokenErr : string → bool)
    (client : api.Logical) (w : World) :
  let d := tracked w in
  let out := identityGroupCreate isExpiredTokenErr client w in
  let r := api.Write client (calls w) identityGroupPath (create_data d) in
  (∀ e, api.err r = Some e →
     out = Return
             (Some (fmt.Errorf "error writing IdentityGroup to %q: %s"
                      [fmt.AString (get_string d "name"); fmt.AError e]))
             (issue w (api.WriteCall identityGroupPath (create_data d))))
  ∧ (api.err r = None → api.resp r = None →
     ∃ reason w', out = Panic reason w')
  ∧ (∀ resp, api.err r = None → api.resp r = Some resp →
     api.Data resp !! "id" = None →
     ∃ reason w', out = Panic reason w')
  ∧ (∀ resp, api.err r = None → api.resp r = Some resp →
     (∀ id, index (api.Data resp) "id" ≠ VString id) →
     ∃ reason w', out = Panic reason w')
  ∧ (∀ resp id, api.err r = None → api.resp r = Some resp →
     index (api.Data resp) "id" = VString id →
     ∃ e w', out = Return e w').
Proof.
  intros d out r. subst out. rewrite identityGroupCreate_run.
  fold d. cbn zeta. fold r.
  destruct (api.err r) as [err|];
    [repeat split; intros; by simplify_eq |].
  destruct (api.resp r) as [resp|];
    [| repeat split; intros; simplify_eq; by eauto].
  destruct (index (api.Data resp) "id") as [| | |id| |] eqn:Hidx.
  all: split; [done |]; split; [done |].
  all: split;
    [intros resp' _ [= <-] Hnone; unfold index in Hidx;
     rewrite Hnone in Hidx; simplify_eq; by eauto |].
  all: split;
    [intros resp' _ [= <-] Hid; try (by destruct (Hid id)); by eauto |].
  all: intros resp' id' _ [= <-] Hid'; rewrite Hidx in Hid'; simplify_eq.
  apply read_returns.
Qed.

Lemma create_unguarded_id_witness :
  let accepted l := fixed_client no_payload (payload l) no_payload in
  (identityGroupCreate expired
     (fixed_client no_payload (failure "sealed") no_payload) (start unborn)
   = Return
       (Some (fmt.Errorf "error writing IdentityGroup to %q: %s"
                [fmt.AString (get_string unborn "name"); fmt.AError "sealed"]))
       (issue (start unborn)
          (api.WriteCall identityGroupPath (create_data unborn))))
  ∧ (∃ reason w',
       identityGroupCreate expired
         (fixed_client no_payload no_payload no_payload) (start unborn)
       = Panic reason w')
  ∧ (∃ reason w',
       identityGroupCreate expired (accepted [("name", VString "g1")])
         (start unborn)
       = Panic reason w')
  ∧ (∃ reason w',
       identityGroupCreate expired (accepted [("id", VInt 7)]) (start unborn)
       = Panic reason w')
  ∧ (∃ e w',
       identityGroupCreate expired (accepted [("id", VString "abc")])
         (start unborn)
       = Return e w').
Proof.
  intros accepted. split; [| split; [| split; [| split]]].
  - apply (create_unguarded_id expired
             (fixed_client no_payload (failure "sealed") no_payload)
             (start unborn)).
    reflexivity.
  - apply (create_unguarded_id expired
             (fixed_client no_payload no_payload no_payload) (start unborn));
      reflexivity.
  - destruct (create_unguarded_id expired (accepted [("name", VString "g1")])
                (start unborn)) as (_ & _ & Hmissing & _).
    apply (Hmissing {| api.Data := list_to_map [("name", VString "g1")] |});
      reflexivity.
  - destruct (create_unguarded_id expired (accepted [("id", VInt 7)])
                (start unborn)) as (_ & _ & _ & Hbad & _).
    apply (Hbad {| api.Data := list_to_map [("id", VInt 7)] |});
      [reflexivity | reflexivity |].
    intros id. vm_compute. discriminate.
  - destruct (create_unguarded_id expired (accepted [("id", VString "abc")])
                (start unborn)) as (_ & _ & _ & _ & Hgood).
    apply (Hgood {| api.Data := list_to_map [("id", VString "abc")] |} "abc");
      reflexivity.
Defined.

(** ** Delete *)

(** X15: delete returns on every reply, and it returns an error exactly
    when the remote delete call returns one; the response of the store is
    not looked at. *)
Lemma delete_error_iff client w :
  let r :=
    api.Delete client (calls w) (identityGroupIDPath (schema.Id (tracked w))) in
  ∃ e w', identityGroupDelete client w = Return e w'
          ∧ (is_Some e ↔ is_Some (api.err r)).
Proof.
  intros r. rewrite identityGroupDelete_run. fold r. eexists _, _.
  split; [done |].
  destruct (api.err r); split; intros [? ?]; by eauto.
Qed.

(** C9: evaluated on a store whose delete fails with [permission denied],
    delete returns an error whose only operand is the id: the error of the
    store is not part of it, whereas update, on a store whose write fails
    the same way, returns an error that carries both the id and the error of
    the store. *)
Theorem delete_error_omits_cause :
  let cause := "permission denied" in
  (∃ e w',
     identityGroupDelete (fixed_client no_payload no_payload (failure cause))
       (start g1)
     = Return (Some e) w'
     ∧ e = fmt.Errorf "error IdentityGroup %q" [fmt.AString "abc"]
     ∧ fmt.AError cause ∉ fmt.args e)
  ∧ (∃ e w',
       identityGroupUpdate expired
         (fixed_client no_payload (failure cause) no_payload) (start g1)
       = Return (Some e) w'
       ∧ e = fmt.Errorf "error updating IdentityGroup %q: %s"
               [fmt.AString "abc"; fmt.AError cause]
       ∧ fmt.AError cause ∈ fmt.args e).
Proof.
  intros cause. split.
  - eexists _, _. split; [vm_compute; reflexivity |]. split; [reflexivity |].
    simpl. rewrite not_elem_of_cons. split; [done | apply not_elem_of_nil].
  - eexists _, _. split; [vm_compute; reflexivity |]. split; [reflexivity |].
    simpl. rewrite !elem_of_cons. by auto.
Qed.

(** * Further properties of the handlers *)

(** ** Paths *)

(** X1: the id-addressed path determines the id and the name-addressed path
    determines the name: two groups share a path only when they share the
    id, respectively the name. *)
Theorem paths_injective (a b : string) :
  (identityGroupIDPath a = identityGroupIDPath b ↔ a = b)
  ∧ (identityGroupNamePath a = identityGroupNamePath b ↔ a = b).
Proof.
  rewrite !identityGroupIDPath_eq, !identityGroupNamePath_eq.
  split; (split; [apply (inj (String.app _)) | by intros ->]).
Qed.

Lemma collection_not_id_path (id : string) :
  identityGroupPath ≠ identityGroupIDPath id.
Proof.
  rewrite identityGroupIDPath_eq. intros H. vm_compute in H. discriminate H.
Qed.

Lemma collection_not_name_path (name : string) :
  identityGroupPath ≠ identityGroupNamePath name.
Proof.
  rewrite identityGroupNamePath_eq. intros H. vm_compute in H. discriminate H.
Qed.

(** X2: the collection path create writes to is neither an id-addressed nor
    a name-addressed path, and no id-addressed path is a name-addressed
    path, whatever the id and the name are (also when they hold slashes). *)
Theorem path_families_disjoint (id name : string) :
  identityGroupPath ≠ identityGroupIDPath id
  ∧ identityGroupPath ≠ identityGroupNamePath name
  ∧ identityGroupIDPath id ≠ identityGroupNamePath name.
Proof.
  split; [apply collection_not_id_path |].
  split; [apply collection_not_name_path |].
  intros H. by apply (name_path_not_id_path name id).
Qed.

(** ** Read *)

(** X3: when the remote read fails with an error that is not classified as
    an expired credential, read returns an error that carries the id and the
    error of the store, after that one call, and the tracked state is what
    it was. *)
Theorem read_failure_reported (isExpiredTokenErr : string → bool)
    (client : api.Logical) (w : World) (resp : option api.Secret)
    (e : string) :
  let path := identityGroupIDPath (schema.Id (tracked w)) in
  api.Read client (calls w) path = {| api.resp := resp; api.err := Some e |} →
  isExpiredTokenErr e = false →
  identityGroupRead isExpiredTokenErr client w
  = Return
      (Some (fmt.Errorf
               "error reading AppRole auth backend role SecretID %q: %s"
               [fmt.AString (schema.Id (tracked w)); fmt.AError e]))
      (issue w (api.ReadCall path)).
Proof.
  intros path Hreply Hexp. rewrite identityGroupRead_run. fold path.
  unfold read_result. rewrite Hreply. simpl. by rewrite Hexp.
Qed.

Lemma read_failure_reported_witness :
  identityGroupRead expired
    (fixed_client (failure "sealed") no_payload no_payload) (start g1)
  = Return
      (Some (fmt.Errorf
               "error reading AppRole auth backend role SecretID %q: %s"
               [fmt.AString (schema.Id (tracked (start g1)));
                fmt.AError "sealed"]))
      (issue (start g1)
         (api.ReadCall (identityGroupIDPath (schema.Id (tracked (start g1)))))).
Proof.
  apply (read_failure_reported expired
           (fixed_client (failure "sealed") no_payload no_payload)
           (start g1) None "sealed"); reflexivity.
Defined.

(** X4: read changes the tracked id in one way only: it clears it, and it
    does so exactly when the store answers with neither an error nor a
    response; on every other reply the id is the one read started with. *)
Theorem read_id_cleared_or_kept (isExpiredTokenErr : string → bool)
    (client : api.Logical) (w : World) :
  let r :=
    api.Read client (calls w) (identityGroupIDPath (schema.Id (tracked w))) in
  schema.Id (tracked (final (identityGroupRead isExpiredTokenErr client w)))
  = match api.err r, api.resp r with
    | None, None => EmptyString
    | _, _ => schema.Id (tracked w)
    end.
Proof.
  intros r. rewrite identityGroupRead_run. fold r. unfold read_result.
  destruct (api.err r) as [e|]; simpl.
  - by destruct (isExpiredTokenErr e).
  - destruct (api.resp r); simpl; [apply refresh_id | done].
Qed.

(** ** Faults and side effects *)


(** X6: delete and exists only talk to the store: whatever it replies, the
    tracked id and every tracked attribute are what they were; in
    particular a successful delete does not clear the id itself. *)
Theorem delete_exists_keep_tracked (client : api.Logical) (w : World) :
  tracked (final (identityGroupDelete client w)) = tracked w
  ∧ tracked (final (identityGroupExists client w)) = tracked w.
Proof.
  by rewrite identityGroupDelete_run, identityGroupExists_run.
Qed.

(** ** Addressing *)

Lemma read_issued isExpiredTokenErr client w :
  issued w (identityGroupRead isExpiredTokenErr client w)
  = [api.ReadCall (identityGroupIDPath (schema.Id (tracked w)))].
Proof. apply issued_issue, read_calls. Qed.

Lemma delete_issued client w :
  issued w (identityGroupDelete client w)
  = [api.DeleteCall (identityGroupIDPath (schema.Id (tracked w)))].
Proof. apply issued_issue. by rewrite identityGroupDelete_run. Qed.

Lemma update_issued isExpiredTokenErr client w :
  let by_id := identityGroupIDPath (schema.Id (tracked w)) in
  ∃ rest,
    issued w (identityGroupUpdate isExpiredTokenErr client w)
    = api.WriteCall by_id (update_data (tracked w)) :: rest
    ∧ (rest = [] ∨ rest = [api.ReadCall by_id]).
Proof.
  intros by_id. rewrite identityGroupUpdate_run. fold by_id. cbn zeta.
  destruct (api.err _).
  - exists []. split; [by apply issued_issue | by left].
  - exists [api.ReadCall by_id]. split; [| by right].
    apply issued_issue. rewrite read_calls. simpl. by rewrite <- app_assoc.
Qed.

Lemma create_issued isExpiredTokenErr client w :
  ∃ rest,
    issued w (identityGroupCreate isExpiredTokenErr client w)
    = api.WriteCall identityGroupPath (create_data (tracked w)) :: rest
    ∧ (rest = [] ∨ ∃ id, rest = [api.ReadCall (identityGroupIDPath id)]).
Proof.
  rewrite identityGroupCreate_run. cbn zeta.
  destruct (api.err _);
    [exists []; split; [by apply issued_issue | by left] |].
  destruct (api.resp _) as [resp|];
    [| exists []; split; [by apply issued_issue | by left]].
  destruct (index (api.Data resp) "id") as [| | |id| |];
    try (exists []; split; [by apply issued_issue | by left]).
  exists [api.ReadCall (identityGroupIDPath id)]. split; [| by eauto].
  apply issued_issue. rewrite read_calls. simpl. by rewrite <- app_assoc.
Qed.

(** X7: once a group is tracked it is addressed by id only: every remote
    call of read, update and delete goes to the id-addressed path of the
    tracked id (also when that id is empty), every remote call of create
    goes to the collection path or to an id-addressed path, and none of the
    four ever calls a name-addressed path. *)
Theorem tracked_group_addressed_by_id (isExpiredTokenErr : string → bool)
    (client : api.Logical) (w : World) :
  let by_id := identityGroupIDPath (schema.Id (tracked w)) in
  let read := issued w (identityGroupRead isExpiredTokenErr client w) in
  let update := issued w (identityGroupUpdate isExpiredTokenErr client w) in
  let delete := issued w (identityGroupDelete client w) in
  let create := issued w (identityGroupCreate isExpiredTokenErr client w) in
  (∀ c, c ∈ read ++ update ++ delete → path_of c = by_id)
  ∧ (∀ c, c ∈ create →
       path_of c = identityGroupPath ∨ ∃ id, path_of c = identityGroupIDPath id)
  ∧ (∀ c name, c ∈ read ++ update ++ delete ++ create →
       path_of c ≠ identityGroupNamePath name).
Proof.
  intros by_id read update delete create.
  assert (Hid : ∀ c, c ∈ read ++ update ++ delete → path_of c = by_id).
  { intros c. subst read update delete.
    rewrite read_issued, delete_issued.
    destruct (update_issued isExpiredTokenErr client w)
      as (rest & -> & [-> | ->]);
      rewrite !elem_of_app, !elem_of_cons, !elem_of_nil; fold by_id;
      intros H; destruct_or!; by simplify_eq. }
  assert (Hcreate : ∀ c, c ∈ create →
            path_of c = identityGroupPath
            ∨ ∃ id, path_of c = identityGroupIDPath id).
  { intros c. subst create.
    destruct (create_issued isExpiredTokenErr client w)
      as (rest & -> & [-> | [id ->]]);
      rewrite !elem_of_cons, !elem_of_nil;
      intros H; destruct_or!; simplify_eq; simpl; by eauto. }
  split; [exact Hid |]. split; [exact Hcreate |].
  intros c name Hc Hname.
  rewrite !app_assoc in Hc. apply elem_of_app in Hc as [Hc | Hc].
  - rewrite <- !app_assoc in Hc. apply Hid in Hc.
    apply (name_path_not_id_path name (schema.Id (tracked w))).
    fold by_id. congruence.
  - apply Hcreate in Hc as [Hc | [id Hc]].
    + apply (collection_not_name_path name). congruence.
    + apply (name_path_not_id_path name id). congruence.
Qed.

(** ** Payloads *)

(** X8: [identityGroupUpdateFields] only adds or overwrites the four
    optional keys: every other key of the map it is given keeps its entry,
    no key is removed, and applying it a second time changes nothing. *)
Theorem update_fields_idempotent (d : schema.ResourceData)
    (data : gmap string value) :
  identityGroupUpdateFields d (identityGroupUpdateFields d data)
  = identityGroupUpdateFields d data
  ∧ (∀ k, k ∉ optional_keys →
       identityGroupUpdateFields d data !! k = data !! k)
  ∧ (∀ k, is_Some (data !! k) →
       is_Some (identityGroupUpdateFields d data !! k)).
Proof.
  split; [| split].
  - apply map_eq. intros k.
    destruct (decide (k ∈ optional_keys)) as [Hin | Hout].
    + rewrite !identityGroupUpdateFields_optional by done.
      by destruct (set_value d k).
    + by rewrite !identityGroupUpdateFields_other.
  - intros k Hk. by apply identityGroupUpdateFields_other.
  - intros k Hk.
    destruct (decide (k ∈ optional_keys)) as [Hin | Hout].
    + rewrite identityGroupUpdateFields_optional by done.
      by destruct (set_value d k).
    + by rewrite identityGroupUpdateFields_other.
Qed.

(** X9: the payload of create is the payload of update for the same tracked
    state with name and type added: the two handlers send the optional
    attributes in the same way. *)
Theorem create_payload_extends_update (d : schema.ResourceData) :
  create_data d
  = <["name" := VString (get_string d "name")]>
      (<["type" := VString (get_string d "type")]> (update_data d)).
Proof.
  assert (Hname : "name" ∉ optional_keys).
  { unfold optional_keys. rewrite !not_elem_of_cons.
    repeat split; try done. apply not_elem_of_nil. }
  assert (Htype : "type" ∉ optional_keys).
  { unfold optional_keys. rewrite !not_elem_of_cons.
    repeat split; try done. apply not_elem_of_nil. }
  apply map_eq. intros k. unfold create_data, update_data.
  destruct (decide (k = "name")) as [-> | Hn].
  { rewrite identityGroupUpdateFields_other by done. by simplify_map_eq. }
  destruct (decide (k = "type")) as [-> | Ht].
  { rewrite identityGroupUpdateFields_other by done. by simplify_map_eq. }
  rewrite !lookup_insert_ne by done.
  destruct (decide (k ∈ optional_keys)) as [Hin | Hout].
  - rewrite !identityGroupUpdateFields_optional by done.
    destruct (set_value d k); [done |]. by rewrite !lookup_insert_ne.
  - rewrite !identityGroupUpdateFields_other by done.
    by rewrite !lookup_insert_ne.
Qed.

(** ** The schema and the handlers *)

Lemma schema_keys (k : string) (s : schema.Schema) :
  schema.Schema_ identityGroupResource !! k = Some s →
  k = "name" ∨ k = "type" ∨ k = "metadata" ∨ k = "policies"
  ∨ k = "member_group_ids" ∨ k = "member_entity_ids" ∨ k = "id".
Proof.
  unfold identityGroupResource, schema.Schema_.
  rewrite !list_to_map_cons, list_to_map_nil.
  intros H.
  repeat (apply lookup_insert_Some in H as [[<- _] | [_ H]]; [by auto 10 |]).
  by rewrite lookup_empty in H.
Qed.

(** X10: the schema and the handlers agree on the attributes: the schema
    declares the five keys read refreshes plus policies and id and nothing
    else, and the four keys the payload builder may send are exactly the
    optional attributes whose change does not force a new resource (name and
    type, which do, are sent by create only). *)
Theorem schema_matches_handlers (k : string) :
  (is_Some (schema.Schema_ identityGroupResource !! k)
   ↔ k ∈ refreshed_keys ∨ k = "policies" ∨ k = "id")
  ∧ (k ∈ optional_keys
     ↔ ∃ s, schema.Schema_ identityGroupResource !! k = Some s
            ∧ schema.Optional s = true ∧ schema.ForceNew s = false)
  ∧ (k = "name" ∨ k = "type"
     ↔ ∃ s, schema.Schema_ identityGroupResource !! k = Some s
            ∧ schema.ForceNew s = true).
Proof.
  unfold refreshed_keys, optional_keys.
  rewrite !elem_of_cons, !elem_of_nil.
  split; [| split]; split.
  - intros [s Hs]. apply schema_keys in Hs. destruct_or!; by auto 10.
  - intros H. destruct_or!; subst; try done; by vm_compute; eauto.
  - intros H. destruct_or!; subst; try done;
      eexists; (split; [by vm_compute |]); by split.
  - intros (s & Hs & Hopt & Hnew). pose proof (schema_keys _ _ Hs) as Hk.
    destruct_or!; subst; vm_compute in Hs; simplify_eq; by auto 10.
  - intros H. destruct_or!; subst;
      eexists; (split; [by vm_compute |]); done.
  - intros (s & Hs & Hnew). pose proof (schema_keys _ _ Hs) as Hk.
    destruct_or!; subst; vm_compute in Hs; simplify_eq; by auto 10.
Qed.

(** ** Reading again *)

Lemma ResourceData_eq (d1 d2 : schema.ResourceData) :
  schema.rd_id d1 = schema.rd_id d2 →
  schema.rd_fields d1 = schema.rd_fields d2 → d1 = d2.
Proof. destruct d1, d2. simpl. by intros -> ->. Qed.

Lemma refresh_idempotent data keys d :
  refresh data keys (refresh data keys d) = refresh data keys d.
Proof.
  apply ResourceData_eq; [by rewrite !refresh_id |].
  apply map_eq. intros k.
  destruct (decide (k ∈ keys)) as [Hin | Hout].
  - by rewrite !refresh_lookup, after_Set_idempotent.
  - by rewrite !refresh_other.
Qed.

Lemma read_result_stable isExpiredTokenErr d r :
  read_result isExpiredTokenErr (read_result isExpiredTokenErr d r).2 r
  = read_result isExpiredTokenErr d r.
Proof.
  unfold read_result. destruct (api.err r) as [e|]; simpl.
  - by destruct (isExpiredTokenErr e).
  - destruct (api.resp r) as [resp|]; simpl; [| done].
    by rewrite refresh_idempotent.
Qed.

(** X11: reading is stable: when the store gives a second read the reply it
    gave the first, the second read returns what the first returned and
    leaves the tracked state as the first left it. *)
Theorem read_again_changes_nothing (isExpiredTokenErr : string → bool)
    (client : api.Logical) (w : World) :
  let first := identityGroupRead isExpiredTokenErr client w in
  let w1 := final first in
  api.Read client (calls w1) (identityGroupIDPath (schema.Id (tracked w1)))
  = api.Read client (calls w) (identityGroupIDPath (schema.Id (tracked w))) →
  ∃ e w2, first = Return e w1
          ∧ identityGroupRead isExpiredTokenErr client w1 = Return e w2
          ∧ tracked w2 = tracked w1.
Proof.
  intros first w1. subst w1 first.
  rewrite (identityGroupRead_run _ _ (final _)).
  rewrite !identityGroupRead_run. cbn [final tracked calls].
  intros ->. rewrite read_result_stable. by eexists _, _.
Qed.

Lemma read_again_changes_nothing_witness :
  let client :=
    fixed_client (payload [("name", VString "renamed")]) no_payload
      no_payload in
  let first := identityGroupRead expired client (start g1) in
  ∃ e w2, first = Return e (final first)
          ∧ identityGroupRead expired client (final first) = Return e w2
          ∧ tracked w2 = tracked (final first).
Proof.
  intros client first.
  apply (read_again_changes_nothing expired client (start g1)).
  reflexivity.
Defined.

(** ** What create and update leave behind *)

Lemma read_result_other isExpiredTokenErr d r k :
  k ∉ refreshed_keys →
  schema.rd_fields (read_result isExpiredTokenErr d r).2 !! k
  = schema.rd_fields d !! k.
Proof.
  intros Hk. unfold read_result. destruct (api.err r) as [e|]; simpl.
  - by destruct (isExpiredTokenErr e).
  - destruct (api.resp r); simpl; [by apply refresh_other | done].
Qed.

Lemma read_result_id isExpiredTokenErr d r :
  schema.Id (read_result isExpiredTokenErr d r).2
  = match api.err r, api.resp r with
    | None, None => EmptyString
    | _, _ => schema.Id d
    end.
Proof.
  unfold read_result. destruct (api.err r) as [e|]; simpl.
  - by destruct (isExpiredTokenErr e).
  - destruct (api.resp r); simpl; [apply refresh_id | done].
Qed.

Lemma after_Set_id (id : string) (old : option value) :
  after_Set "id" (VString id) old = Some (VString id).
Proof.
  unfold after_Set.
  destruct (schema.Schema_ identityGroupResource !! "id") as [s|] eqn:Hs;
    [| by vm_compute in Hs].
  vm_compute in Hs. by injection Hs as <-.
Qed.

Lemma id_not_refreshed : "id" ∉ refreshed_keys.
Proof.
  unfold refreshed_keys. rewrite !not_elem_of_cons.
  repeat split; try done. apply not_elem_of_nil.
Qed.

(** X12: when the write of create succeeds with a response whose [id] is a
    string, create stores that id as the attribute [id], reads the group
    back on the id-addressed path of the new id, after the write, and ends
    with the new id tracked, unless that read finds neither an error nor a
    response: then create ends with an empty tracked id. Attributes other
    than [id] and the five refreshed ones keep their value. *)
Theorem create_records_id (isExpiredTokenErr : string → bool)
    (client : api.Logical) (w : World) (resp : api.Secret) (id : string) :
  let d := tracked w in
  let write := api.WriteCall identityGroupPath (create_data d) in
  let back :=
    api.Read client (calls w ++ [write]) (identityGroupIDPath id) in
  let w' := final (identityGroupCreate isExpiredTokenErr client w) in
  api.Write client (calls w) identityGroupPath (create_data d)
    = {| api.resp := Some resp; api.err := None |} →
  index (api.Data resp) "id" = VString id →
  calls w' = calls w ++ [write; api.ReadCall (identityGroupIDPath id)]
  ∧ stored (tracked w') "id" = VString id
  ∧ schema.Id (tracked w')
    = match api.err back, api.resp back with
      | None, None => EmptyString
      | _, _ => id
      end
  ∧ (∀ k, k ∉ refreshed_keys → k ≠ "id" →
       schema.rd_fields (tracked w') !! k = schema.rd_fields d !! k).
Proof.
  intros d write back w' Hwrite Hid. subst w'.
  rewrite identityGroupCreate_run. fold d. cbn zeta.
  rewrite Hwrite. cbn [api.err api.resp]. rewrite Hid.
  rewrite identityGroupRead_run. cbn [final tracked calls issue].
  fold write. change (schema.Id (schema.SetId id _)) with id. fold back.
  split; [by rewrite <- app_assoc |]. split; [| split].
  - unfold stored, index.
    rewrite read_result_other by apply id_not_refreshed.
    cbn [schema.rd_fields schema.SetId].
    by rewrite Set_lookup, after_Set_id.
  - by rewrite read_result_id.
  - intros k Hk Hne. rewrite read_result_other by done.
    cbn [schema.rd_fields schema.SetId]. by rewrite Set_other.
Qed.

Lemma create_records_id_witness :
  let client :=
    fixed_client no_payload (payload [("id", VString "abc")]) no_payload in
  let w' := final (identityGroupCreate expired client (start unborn)) in
  calls w'
  = calls (start unborn)
    ++ [api.WriteCall identityGroupPath (create_data (tracked (start unborn)));
        api.ReadCall (identityGroupIDPath "abc")]
  ∧ stored (tracked w') "id" = VString "abc"
  ∧ schema.Id (tracked w') = EmptyString.
Proof.
  intros client w'.
  destruct (create_records_id expired client (start unborn)
              {| api.Data := list_to_map [("id", VString "abc")] |} "abc")
    as (Hcalls & Hattr & Hid & _); [reflexivity | reflexivity |].
  split; [exact Hcalls |]. split; [exact Hattr | exact Hid].
Defined.

(** X13: when the write of update fails, update returns an error that
    carries the tracked id and the error of the store, issues no read, and
    leaves the tracked state as it was. *)
Theorem update_failure_reported (isExpiredTokenErr : string → bool)
    (client : api.Logical) (w : World) (resp : option api.Secret)
    (e : string) :
  let id := schema.Id (tracked w) in
  let write :=
    api.WriteCall (identityGroupIDPath id) (update_data (tracked w)) in
  api.Write client (calls w) (identityGroupIDPath id) (update_data (tracked w))
    = {| api.resp := resp; api.err := Some e |} →
  identityGroupUpdate isExpiredTokenErr client w
  = Return
      (Some (fmt.Errorf "error updating IdentityGroup %q: %s"
               [fmt.AString id; fmt.AError e]))
      (issue w write).
Proof.
  intros id write Hwrite. rewrite identityGroupUpdate_run. fold id.
  cbn zeta. by rewrite Hwrite.
Qed.

Lemma update_failure_reported_witness :
  identityGroupUpdate expired
    (fixed_client no_payload (failure "sealed") no_payload) (start g1)
  = Return
      (Some (fmt.Errorf "error updating IdentityGroup %q: %s"
               [fmt.AString (schema.Id (tracked (start g1)));
                fmt.AError "sealed"]))
      (issue (start g1)
         (api.WriteCall (identityGroupIDPath (schema.Id (tracked (start g1))))
            (update_data (tracked (start g1))))).
Proof.
  apply (update_failure_reported expired
           (fixed_client no_payload (failure "sealed") no_payload)
           (start g1) None "sealed").
  reflexivity.
Defined.

(** X14: whatever the store replies, update changes no tracked attribute
    other than the five refreshed ones: the policies it has just sent stay
    as they were, and the tracked id is kept or cleared, never replaced. *)
Theorem update_keeps_other_attributes (isExpiredTokenErr : string → bool)
    (client : api.Logical) (w : World) :
  let w' := final (identityGroupUpdate isExpiredTokenErr client w) in
  (∀ k, k ∉ refreshed_keys →
     schema.rd_fields (tracked w') !! k = schema.rd_fields (tracked w) !! k)
  ∧ update_data (tracked w') !! "policies"
    = update_data (tracked w) !! "policies"
  ∧ (schema.Id (tracked w') = schema.Id (tracked w)
     ∨ schema.Id (tracked w') = EmptyString).
Proof.
  intros w'.
  assert (Hframe : ∀ k, k ∉ refreshed_keys →
            schema.rd_fields (tracked w') !! k
            = schema.rd_fields (tracked w) !! k).
  { intros k Hk. subst w'. rewrite identityGroupUpdate_run. cbn zeta.
    destruct (api.err _); [done |].
    rewrite identityGroupRead_run. cbn [final tracked issue].
    by rewrite read_result_other. }
  split; [exact Hframe |]. split.
  - assert (Hpol : "policies" ∈ optional_keys)
      by (apply elem_of_cons; by left).
    unfold update_data.
    rewrite !identityGroupUpdateFields_optional by done.
    unfold set_value, schema.GetOk. rewrite Hframe; [done |].
    unfold refreshed_keys. rewrite !not_elem_of_cons.
    repeat split; try done. apply not_elem_of_nil.
  - subst w'. rewrite identityGroupUpdate_run. cbn zeta.
    destruct (api.err _); [by left |].
    rewrite identityGroupRead_run. cbn [final tracked issue].
    rewrite read_result_id.
    match goal with
    | |- context [api.resp ?r] => destruct (api.err r), (api.resp r)
    end; by auto.
Qed.

(** ** Read, then exists *)

(** X16: once read has found the group gone (no error, no response) the
    tracked id is empty, so an exists that follows probes the store by the
    tracked name, on the name-addressed path, and no longer by id. *)
Theorem exists_after_drift_probes_by_name (isExpiredTokenErr : string → bool)
    (client : api.Logical) (w : World) :
  let w1 := final (identityGroupRead isExpiredTokenErr client w) in
  api.Read client (calls w) (identityGroupIDPath (schema.Id (tracked w)))
    = {| api.resp := None; api.err := None |} →
  issued w1 (identityGroupExists client w1)
  = [api.ReadCall
       (identityGroupNamePath (get_string (tracked w) "name"))].
Proof.
  intros w1 Hreply. apply issued_issue.
  rewrite identityGroupExists_run. cbn [final calls issue]. f_equal. f_equal.
  subst w1. rewrite identityGroupRead_run. cbn [final tracked].
  unfold read_result. rewrite Hreply. reflexivity.
Qed.

Lemma exists_after_drift_probes_by_name_witness :
  let client := fixed_client no_payload no_payload no_payload in
  let w1 := final (identityGroupRead expired client (start g1)) in
  issued w1 (identityGroupExists client w1)
  = [api.ReadCall
       (identityGroupNamePath (get_string (tracked (start g1)) "name"))].
Proof.
  intros client w1.
  apply (exists_after_drift_probes_by_name expired client (start g1)).
  reflexivity.
Defined.
